(** * use-delay-follow-state: the hooks [useDelayedState] and [useFollowState]

    A shallow embedding of [src/index.ts].  A hook instance is a record of
    the cells React keeps for it between renders (the [useState] value and
    the [useRef] slot) together with the part of the host it talks to: the
    table of one-shot timers armed by [setTimeout], the next timer handle
    and the clock.  The functions the hook returns become state
    transformers; the variables a closure captures from its render become
    fields that only [render] refreshes.

    Conventions of the host model, none of which is in the source:
    - [setTimeout] hands out the handles 1, 2, 3, ... (a handle is a
      positive integer, so it is truthy);
    - delays are whole milliseconds; the host keeps a delay between 1 and
      2^31 - 1 as it is and takes any other for 1 (see [timer_delay]), and
      a timer armed at time [t] with kept delay [d] runs as soon as the
      clock has reached [t + d];
    - due timers run earliest first, and in arming order among equals. *)

From Stdlib Require Import ZArith List Bool Lia String.
Import ListNotations.

Set Implicit Arguments.
Local Open Scope Z_scope.

(** ** The [useRef] slot

    [useRef()] starts at [undefined]; the code stores [null] or the handle
    returned by [setTimeout] in it. *)

Inductive TimeoutRef : Type :=
| RefUndefined
| RefNull
| RefHandle (h : nat).

(** JavaScript truthiness, as tested by [if (timeoutRef.current)]. *)
Definition truthy (r : TimeoutRef) : bool :=
  match r with
  | RefUndefined => false
  | RefNull => false
  | RefHandle h => negb (Nat.eqb h 0)
  end.

(** ** The delay the host keeps

    The source hands [delayMS] to the host's [setTimeout] as it is.  The
    host keeps a delay as a signed 32-bit number of milliseconds: one
    outside 1 .. 2^31 - 1 is replaced by 1. *)

Definition TIMEOUT_MAX : Z := 2147483647.

Definition timer_delay (delay : Z) : Z :=
  if (1 <=? delay) && (delay <=? TIMEOUT_MAX) then delay else 1.

(** * useDelayedState *)

Section DelayedState.

Variable T : Type.

(** A timer of the host.  Its callback is the arrow function of
    [setStateAfter], [() => { setState(newState); timeoutRef.current = null }],
    which is determined by the [newState] it captured. *)
Record Timer : Type := mkTimer {
  tid : nat;
  due : Z;
  cb_newState : T
}.

Record DelayedHook : Type := mkDelayed {
  state : T;                 (* the [useState] cell *)
  timeoutRef : TimeoutRef;   (* [timeoutRef.current] *)
  timers : list Timer;       (* host: armed timers, in arming order *)
  next_id : nat;             (* host: the handle of the next timer *)
  now : Z                    (* host: the clock, in milliseconds *)
}.

Definition set_state (v : T) (s : DelayedHook) : DelayedHook :=
  mkDelayed v (timeoutRef s) (timers s) (next_id s) (now s).

Definition set_timeoutRef (r : TimeoutRef) (s : DelayedHook) : DelayedHook :=
  mkDelayed (state s) r (timers s) (next_id s) (now s).

Definition set_timers (ts : list Timer) (s : DelayedHook) : DelayedHook :=
  mkDelayed (state s) (timeoutRef s) ts (next_id s) (now s).

Definition set_now (t : Z) (s : DelayedHook) : DelayedHook :=
  mkDelayed (state s) (timeoutRef s) (timers s) (next_id s) t.

(** ** Host primitives *)

Definition clearTimeout (h : nat) (s : DelayedHook) : DelayedHook :=
  set_timers (filter (fun t => negb (Nat.eqb (tid t) h)) (timers s)) s.

Definition setTimeout (newState : T) (delay : Z) (s : DelayedHook)
  : nat * DelayedHook :=
  let h := next_id s in
  (h, mkDelayed (state s) (timeoutRef s)
        (timers s ++ [mkTimer h (now s + timer_delay delay) newState])
        (S h) (now s)).

(** ** The functions of the hook *)

(** The first render: [useState(initialState)] and [useRef()]. *)
Definition useDelayedState (initialState : T) : DelayedHook :=
  mkDelayed initialState RefUndefined [] 1%nat 0.

Definition cancelSetState (s : DelayedHook) : DelayedHook :=
  match timeoutRef s with
  | RefHandle h =>
      if truthy (RefHandle h)
      then set_timeoutRef RefNull (clearTimeout h s)
      else s
  | RefUndefined => s
  | RefNull => s
  end.

(** [delayMS] is optional: [None] is [undefined]. *)
Definition setStateAfter (newState : T) (delayMS : option Z) (s : DelayedHook)
  : DelayedHook :=
  let s1 := cancelSetState s in
  match delayMS with
  | None => set_state newState s1
  | Some d =>
      if d =? 0 then set_state newState s1
      else let (h, s2) := setTimeout newState d s1 in
           set_timeoutRef (RefHandle h) s2
  end.

(** The cleanup returned by the [useEffect]: it clears the timer and
    leaves the slot as it is. *)
Definition unmount (s : DelayedHook) : DelayedHook :=
  match timeoutRef s with
  | RefHandle h => if truthy (RefHandle h) then clearTimeout h s else s
  | RefUndefined => s
  | RefNull => s
  end.

(** ** The passage of time *)

(** The host takes a timer off its table and runs its callback. *)
Definition fire (t : Timer) (s : DelayedHook) : DelayedHook :=
  set_timeoutRef RefNull (set_state (cb_newState t) (clearTimeout (tid t) s)).

(** The timer that is due first; the one armed first among equals. *)
Fixpoint earliest (ts : list Timer) : option Timer :=
  match ts with
  | [] => None
  | t :: ts' =>
      match earliest ts' with
      | Some u => if due u <? due t then Some u else Some t
      | None => Some t
      end
  end.

Fixpoint run_timers (fuel : nat) (target : Z) (s : DelayedHook) : DelayedHook :=
  match fuel with
  | O => s
  | S fuel' =>
      match earliest (timers s) with
      | Some t =>
          if due t <=? target then run_timers fuel' target (fire t s) else s
      | None => s
      end
  end.

(** [dt] milliseconds pass: every timer due by then runs.  No callback
    arms a timer, so one round per armed timer is enough
    (see [advance_complete]). *)
Definition advance (dt : Z) (s : DelayedHook) : DelayedHook :=
  let target := now s + Z.max 0 dt in
  set_now target (run_timers (List.length (timers s)) target s).

(** ** Reachable instances *)

Inductive reachable : DelayedHook -> Prop :=
| reach_mount (initialState : T) :
    reachable (useDelayedState initialState)
| reach_setStateAfter (s : DelayedHook) (v : T) (d : option Z) :
    reachable s -> reachable (setStateAfter v d s)
| reach_cancelSetState (s : DelayedHook) :
    reachable s -> reachable (cancelSetState s)
| reach_advance (s : DelayedHook) (dt : Z) :
    reachable s -> reachable (advance dt s)
| reach_unmount (s : DelayedHook) :
    reachable s -> reachable (unmount s).

(** The slot owns the timers: the table is empty, or holds exactly the
    timer whose handle is in the slot. *)
Definition owns_timers (s : DelayedHook) : Prop :=
  next_id s <> 0%nat /\
  (timers s = [] \/
   exists t, timers s = [t] /\ timeoutRef s = RefHandle (tid t) /\ tid t <> 0%nat).

End DelayedState.

(** * useFollowState *)

Section FollowState.

Variable T : Type.

(** [strict_eq a b] is JavaScript's [a === b] on the values of [T]. *)
Variable strict_eq : T -> T -> bool.

(** Besides its own [useState] cell and the [useDelayedState] it owns, an
    instance carries what the closures handed out by the last render
    captured: the constants [state] and [followState] of that render.
    [revertStateToFollow] reads these, not the cells. *)
Record FollowHook : Type := mkFollow {
  f_state : T;                  (* the [useState] cell *)
  f_delayed : DelayedHook T;    (* the owned [useDelayedState] *)
  r_state : T;                  (* [state] of the last render *)
  r_followState : T             (* [followState] of the last render *)
}.

Definition set_f_delayed (d : DelayedHook T) (c : FollowHook) : FollowHook :=
  mkFollow (f_state c) d (r_state c) (r_followState c).

(** The first render. *)
Definition useFollowState (initialState : T) : FollowHook :=
  mkFollow initialState (useDelayedState initialState)
    initialState initialState.

(** A later render reads both cells again. *)
Definition render (c : FollowHook) : FollowHook :=
  mkFollow (f_state c) (f_delayed c) (f_state c) (state (f_delayed c)).

Definition setStateAndFollow (newState : T) (delayMS : option Z)
  (c : FollowHook) : FollowHook :=
  mkFollow newState (setStateAfter newState delayMS (f_delayed c))
    (r_state c) (r_followState c).

Definition revertStateToFollow (c : FollowHook) : FollowHook :=
  let c1 := set_f_delayed (cancelSetState (f_delayed c)) c in
  if negb (strict_eq (r_state c) (r_followState c))
  then mkFollow (r_followState c) (f_delayed c1) (r_state c1) (r_followState c1)
  else c1.

(** Time passes for the owned timer; React renders again afterwards. *)
Definition elapse (dt : Z) (c : FollowHook) : FollowHook :=
  render (set_f_delayed (advance dt (f_delayed c)) c).

(** Unmounting runs the cleanup of the owned [useDelayedState]. *)
Definition unmount_follow (c : FollowHook) : FollowHook :=
  set_f_delayed (unmount (f_delayed c)) c.

Inductive follow_reachable : FollowHook -> Prop :=
| freach_mount (initialState : T) :
    follow_reachable (useFollowState initialState)
| freach_setStateAndFollow (c : FollowHook) (v : T) (d : option Z) :
    follow_reachable c -> follow_reachable (setStateAndFollow v d c)
| freach_revertStateToFollow (c : FollowHook) :
    follow_reachable c -> follow_reachable (revertStateToFollow c)
| freach_render (c : FollowHook) :
    follow_reachable c -> follow_reachable (render c)
| freach_elapse (c : FollowHook) (dt : Z) :
    follow_reachable c -> follow_reachable (elapse dt c)
| freach_unmount (c : FollowHook) :
    follow_reachable c -> follow_reachable (unmount_follow c).

(** The follower heads for the immediate value: the owned instance owns its
    timers, and an armed timer carries the value of the [useState] cell. *)
Definition follows_forward (c : FollowHook) : Prop :=
  owns_timers (f_delayed c) /\
  forall t, In t (timers (f_delayed c)) -> cb_newState t = f_state c.

End FollowState.

(** * Sample instances

    The runs of the specification's scenarios start from these. *)

(** A number-valued instance, 50 ms after [setStateAfter(1, 100)]. *)
Definition pending : DelayedHook Z :=
  advance 50 (setStateAfter 1 (Some 100) (useDelayedState 0)).

(** A string-valued follower, on which [===] is [String.eqb]. *)
Definition hi : string := "hi"%string.

Definition start : FollowHook string := useFollowState EmptyString.

(** * Runs of calls

    The vocabulary of the properties about several calls in a row.  These
    are the calling patterns of the README and of [example/src/App.js],
    written over the functions above. *)

Section Runs.

Variable T : Type.
Variable strict_eq : T -> T -> bool.

(** A burst of delayed requests: each entry [(gap, v)] lets [gap]
    milliseconds pass and then calls [setStateAfter(v, d)]. *)
Fixpoint burst (d : Z) (reqs : list (Z * T)) (s : DelayedHook T)
  : DelayedHook T :=
  match reqs with
  | [] => s
  | (gap, v) :: rest => burst d rest (setStateAfter v (Some d) (advance gap s))
  end.

(** The same for a follower: each entry lets [gap] milliseconds pass, calls
    [setStateAndFollow(v, d)] and lets React render. *)
Fixpoint typing (d : Z) (keys : list (Z * T)) (c : FollowHook T)
  : FollowHook T :=
  match keys with
  | [] => c
  | (gap, v) :: rest =>
      typing d rest (render (setStateAndFollow v (Some d) (elapse gap c)))
  end.

(** The instances of [useDelayedState] that are still mounted. *)
Inductive mounted : DelayedHook T -> Prop :=
| mounted_first (initialState : T) :
    mounted (useDelayedState initialState)
| mounted_setStateAfter (s : DelayedHook T) (v : T) (d : option Z) :
    mounted s -> mounted (setStateAfter v d s)
| mounted_cancelSetState (s : DelayedHook T) :
    mounted s -> mounted (cancelSetState s)
| mounted_advance (s : DelayedHook T) (dt : Z) :
    mounted s -> mounted (advance dt s).

(** The mounted followers whose functions are only ever called from the
    latest render: React renders after every call and after every timer. *)
Inductive in_step : FollowHook T -> Prop :=
| in_step_first (initialState : T) :
    in_step (useFollowState initialState)
| in_step_setStateAndFollow (c : FollowHook T) (v : T) (d : option Z) :
    in_step c -> in_step (render (setStateAndFollow v d c))
| in_step_revertStateToFollow (c : FollowHook T) :
    in_step c -> in_step (render (revertStateToFollow strict_eq c))
| in_step_elapse (c : FollowHook T) (dt : Z) :
    in_step c -> in_step (elapse dt c).

(** What [in_step] keeps: the render is up to date, the slot of the owned
    instance tells whether a timer is armed, and the two cells agree
    whenever none is. *)
Definition settled_when_idle (c : FollowHook T) : Prop :=
  follows_forward c /\
  r_state c = f_state c /\
  r_followState c = state (f_delayed c) /\
  (timers (f_delayed c) = [] ->
   truthy (timeoutRef (f_delayed c)) = false /\
   f_state c = state (f_delayed c)).

End Runs.

(** The effect of [example/src/App.js], run whenever the typed text has
    changed: [setUpdating(true); setUpdating(false, 1000)]. *)
Definition flagUpdating (s : DelayedHook bool) : DelayedHook bool :=
  setStateAfter false (Some 1000) (setStateAfter true None s).

(** The effect running again and again, [gap] milliseconds apart. *)
Fixpoint retrigger (gaps : list Z) (s : DelayedHook bool) : DelayedHook bool :=
  match gaps with
  | [] => s
  | gap :: rest => retrigger rest (flagUpdating (advance gap s))
  end.

(** Three keystrokes, 300 ms apart. *)
Definition keystrokes : list (Z * string) :=
  [(300, "h"%string); (300, "he"%string); (300, "hel"%string)].

(** * Facts about useDelayedState *)

Unset Implicit Arguments.

Section DelayedFacts.

Variable T : Type.
Implicit Types (s : DelayedHook T) (t : Timer T) (v : T).

Lemma timer_delay_kept (d : Z) : 0 < d <= TIMEOUT_MAX -> timer_delay d = d.
Proof.
  intros H. unfold timer_delay.
  destruct (Z.leb_spec 1 d); [|lia].
  destruct (Z.leb_spec d TIMEOUT_MAX); [reflexivity | lia].
Qed.

Lemma timer_delay_bounds (d : Z) : 0 < d -> 1 <= timer_delay d <= d.
Proof.
  intros H. unfold timer_delay.
  destruct (1 <=? d); [destruct (d <=? TIMEOUT_MAX)|]; simpl; lia.
Qed.

Lemma timer_delay_positive (d : Z) : 1 <= timer_delay d.
Proof.
  unfold timer_delay.
  destruct (Z.leb_spec 1 d); [destruct (d <=? TIMEOUT_MAX)|]; simpl; lia.
Qed.

Lemma cancelSetState_state s : state (cancelSetState s) = state s.
Proof.
  unfold cancelSetState.
  destruct (timeoutRef s) as [| |h]; try reflexivity.
  destruct (truthy (RefHandle h)); reflexivity.
Qed.

Lemma cancelSetState_now s : now (cancelSetState s) = now s.
Proof.
  unfold cancelSetState.
  destruct (timeoutRef s) as [| |h]; try reflexivity.
  destruct (truthy (RefHandle h)); reflexivity.
Qed.

Lemma cancelSetState_next_id s : next_id (cancelSetState s) = next_id s.
Proof.
  unfold cancelSetState.
  destruct (timeoutRef s) as [| |h]; try reflexivity.
  destruct (truthy (RefHandle h)); reflexivity.
Qed.

Lemma cancelSetState_falsy s : truthy (timeoutRef (cancelSetState s)) = false.
Proof.
  unfold cancelSetState.
  destruct (timeoutRef s) as [| |h] eqn:E; rewrite ?E; try reflexivity.
  destruct (truthy (RefHandle h)) eqn:E'; simpl; [reflexivity|].
  rewrite E. exact E'.
Qed.

Lemma cancelSetState_unarmed s :
  truthy (timeoutRef s) = false -> cancelSetState s = s.
Proof.
  unfold cancelSetState. destruct (timeoutRef s) as [| |h]; try reflexivity.
  intros ->. reflexivity.
Qed.

Lemma truthy_handle (h : nat) : h <> 0%nat -> truthy (RefHandle h) = true.
Proof.
  intros H. simpl. destruct (Nat.eqb_spec h 0); [contradiction|reflexivity].
Qed.

Lemma cancelSetState_clears s :
  owns_timers s -> timers (cancelSetState s) = [].
Proof.
  intros [_ [E | (t & E & R & N)]]; unfold cancelSetState.
  - destruct (timeoutRef s) as [| |h]; try exact E.
    destruct (truthy (RefHandle h)); [|exact E].
    simpl. rewrite E. reflexivity.
  - rewrite R, (truthy_handle _ N). simpl. rewrite E. simpl.
    rewrite Nat.eqb_refl. reflexivity.
Qed.

Lemma fire_single s t :
  timers s = [t] ->
  fire t s = mkDelayed (cb_newState t) RefNull [] (next_id s) (now s).
Proof.
  intros E. unfold fire, clearTimeout, set_timeoutRef, set_state, set_timers.
  simpl. rewrite E. simpl. rewrite Nat.eqb_refl. reflexivity.
Qed.

Lemma advance_idle s dt :
  timers s = [] -> advance dt s = set_now (now s + Z.max 0 dt) s.
Proof.
  intros E. unfold advance. rewrite E. reflexivity.
Qed.

Lemma advance_single s t dt :
  timers s = [t] ->
  advance dt s =
    if due t <=? now s + Z.max 0 dt
    then set_now (now s + Z.max 0 dt) (fire t s)
    else set_now (now s + Z.max 0 dt) s.
Proof.
  intros E. unfold advance. rewrite E. simpl. rewrite E. simpl.
  destruct (due t <=? now s + Z.max 0 dt); reflexivity.
Qed.

(** What [setStateAfter] does to an instance that owns its timers. *)

Lemma setStateAfter_immediate s v :
  owns_timers s ->
  setStateAfter v None s =
    mkDelayed v (timeoutRef (cancelSetState s)) [] (next_id s) (now s).
Proof.
  intros O. unfold setStateAfter, set_state.
  rewrite (cancelSetState_clears _ O), cancelSetState_next_id, cancelSetState_now.
  reflexivity.
Qed.

Lemma setStateAfter_zero_undefined s v :
  setStateAfter v (Some 0) s = setStateAfter v None s.
Proof. reflexivity. Qed.

Lemma setStateAfter_delayed s v d :
  owns_timers s -> d <> 0 ->
  setStateAfter v (Some d) s =
    mkDelayed (state s) (RefHandle (next_id s))
      [mkTimer (next_id s) (now s + timer_delay d) v] (S (next_id s)) (now s).
Proof.
  intros O D. unfold setStateAfter.
  destruct (Z.eqb_spec d 0) as [->|_]; [contradiction|].
  unfold setTimeout, set_timeoutRef. simpl.
  rewrite (cancelSetState_clears _ O), cancelSetState_next_id, cancelSetState_now,
    cancelSetState_state.
  reflexivity.
Qed.

Lemma setStateAfter_timers s v d t :
  owns_timers s ->
  In t (timers (setStateAfter v d s)) ->
  tid t = next_id s /\ cb_newState t = v /\ timers (setStateAfter v d s) = [t].
Proof.
  intros O. destruct d as [d|].
  - destruct (Z.eq_dec d 0) as [->|D].
    + rewrite setStateAfter_zero_undefined, (setStateAfter_immediate s v O).
      simpl. contradiction.
    + rewrite (setStateAfter_delayed s v d O D). simpl.
      intros [<-|[]]. auto.
  - rewrite (setStateAfter_immediate s v O). simpl. contradiction.
Qed.

Lemma advance_timers_incl s dt t :
  owns_timers s -> In t (timers (advance dt s)) -> In t (timers s).
Proof.
  intros [_ [E | (u & E & _)]].
  - rewrite (advance_idle s dt E). simpl. auto.
  - rewrite (advance_single s u dt E).
    destruct (due u <=? now s + Z.max 0 dt); simpl; [|auto].
    rewrite E. simpl. rewrite Nat.eqb_refl. simpl. contradiction.
Qed.

(** ** The ownership invariant *)

Lemma owns_mount v : owns_timers (useDelayedState v).
Proof. split; [discriminate | left; reflexivity]. Qed.

Lemma owns_cancelSetState s : owns_timers s -> owns_timers (cancelSetState s).
Proof.
  intros O. split.
  - rewrite cancelSetState_next_id. apply O.
  - left. apply (cancelSetState_clears _ O).
Qed.

Lemma owns_setStateAfter s v d : owns_timers s -> owns_timers (setStateAfter v d s).
Proof.
  intros O. destruct d as [d|].
  - destruct (Z.eq_dec d 0) as [->|D].
    + rewrite setStateAfter_zero_undefined, (setStateAfter_immediate _ v O).
      split; [apply O | left; reflexivity].
    + rewrite (setStateAfter_delayed _ v _ O D).
      split; [discriminate|]. right. eexists. split; [reflexivity|].
      split; [reflexivity | apply O].
  - rewrite (setStateAfter_immediate _ v O).
    split; [apply O | left; reflexivity].
Qed.

Lemma owns_advance s dt : owns_timers s -> owns_timers (advance dt s).
Proof.
  intros [N [E | (t & E & R & Nt)]].
  - rewrite (advance_idle _ dt E). split; [exact N | left; exact E].
  - rewrite (advance_single _ _ dt E).
    destruct (due t <=? now s + Z.max 0 dt).
    + rewrite (fire_single _ _ E). split; [exact N | left; reflexivity].
    + split; [exact N | right; exists t; auto].
Qed.

Lemma unmount_clears s : owns_timers s -> timers (unmount s) = [].
Proof.
  intros [_ [E | (t & E & R & N)]]; unfold unmount.
  - destruct (timeoutRef s) as [| |h]; try exact E.
    destruct (truthy (RefHandle h)); [|exact E].
    simpl. rewrite E. reflexivity.
  - rewrite R, (truthy_handle _ N). simpl. rewrite E. simpl.
    rewrite Nat.eqb_refl. reflexivity.
Qed.

Lemma unmount_state s : state (unmount s) = state s.
Proof.
  unfold unmount. destruct (timeoutRef s) as [| |h]; try reflexivity.
  destruct (truthy (RefHandle h)); reflexivity.
Qed.

Lemma unmount_next_id s : next_id (unmount s) = next_id s.
Proof.
  unfold unmount. destruct (timeoutRef s) as [| |h]; try reflexivity.
  destruct (truthy (RefHandle h)); reflexivity.
Qed.

Lemma owns_unmount s : owns_timers s -> owns_timers (unmount s).
Proof.
  intros O. split.
  - rewrite unmount_next_id. apply O.
  - left. apply (unmount_clears _ O).
Qed.

Lemma reachable_owns s : reachable s -> owns_timers s.
Proof.
  induction 1.
  - apply owns_mount.
  - now apply owns_setStateAfter.
  - now apply owns_cancelSetState.
  - now apply owns_advance.
  - now apply owns_unmount.
Qed.

(** Once no timer is armed the value stays. *)
Lemma idle_forever s e : timers s = [] -> state (advance e s) = state s.
Proof.
  intros E. rewrite (advance_idle _ e E). reflexivity.
Qed.

(** ** [advance] runs every due timer

    This holds of any timer table, owned or not: the fuel [advance] gives
    to [run_timers] never runs out before the due timers do. *)

Lemma earliest_in (ts : list (Timer T)) t : earliest ts = Some t -> In t ts.
Proof.
  revert t. induction ts as [|a ts IH]; simpl; intros t H; [discriminate|].
  destruct (earliest ts) as [u|].
  - destruct (due u <? due a); injection H as <-; auto.
  - injection H as <-; auto.
Qed.

Lemma earliest_none (ts : list (Timer T)) : earliest ts = None -> ts = [].
Proof.
  destruct ts as [|a ts]; simpl; [reflexivity|].
  destruct (earliest ts) as [u|]; [destruct (due u <? due a)|]; discriminate.
Qed.

Lemma earliest_least (ts : list (Timer T)) t u :
  earliest ts = Some t -> In u ts -> due t <= due u.
Proof.
  revert t. induction ts as [|a ts IH]; simpl; intros t H Hu; [contradiction|].
  destruct (earliest ts) as [w|] eqn:E.
  - specialize (IH w eq_refl).
    destruct (Z.ltb_spec (due w) (due a)); injection H as <-;
      destruct Hu as [<-|Hu]; try lia; specialize (IH Hu); lia.
  - injection H as <-. apply earliest_none in E. subst ts.
    destruct Hu as [<-|[]]. lia.
Qed.

Lemma filter_tid_shorter (ts : list (Timer T)) t :
  In t ts ->
  (List.length (filter (fun u => negb (Nat.eqb (tid u) (tid t))) ts)
   < List.length ts)%nat.
Proof.
  induction ts as [|a ts IH]; simpl; intros H; [contradiction|].
  destruct H as [->|H].
  - rewrite Nat.eqb_refl. simpl.
    apply Nat.lt_succ_r, filter_length_le.
  - specialize (IH H).
    destruct (negb (Nat.eqb (tid a) (tid t))); simpl; lia.
Qed.

Lemma run_timers_complete fuel target s u :
  (List.length (timers s) <= fuel)%nat ->
  In u (timers (run_timers fuel target s)) -> target < due u.
Proof.
  revert s. induction fuel as [|fuel IH]; simpl; intros s L H.
  - destruct (timers s); [contradiction | simpl in L; lia].
  - destruct (earliest (timers s)) as [t|] eqn:E.
    + destruct (Z.leb_spec (due t) target) as [D|D].
      * apply (IH (fire t s)); [|exact H].
        simpl. pose proof (filter_tid_shorter _ _ (earliest_in _ _ E)). lia.
      * pose proof (earliest_least _ _ u E H). lia.
    + apply earliest_none in E. rewrite E in H. contradiction.
Qed.

Lemma advance_complete s dt u :
  In u (timers (advance dt s)) -> now (advance dt s) < due u.
Proof.
  unfold advance. simpl. apply run_timers_complete. apply Nat.le_refl.
Qed.

(** Watching does not disturb: waiting [e1] and then [e2] is waiting
    [e1 + e2]. *)
Lemma advance_advance s e1 e2 :
  owns_timers s -> 0 <= e1 -> 0 <= e2 ->
  advance e2 (advance e1 s) = advance (e1 + e2) s.
Proof.
  intros [_ [E | (t & E & _)]] H1 H2.
  - rewrite (advance_idle _ e1 E), (advance_idle _ (e1 + e2) E).
    rewrite advance_idle by exact E.
    unfold set_now. simpl. f_equal. lia.
  - rewrite (advance_single _ _ e1 E), (advance_single _ _ (e1 + e2) E).
    destruct (Z.leb_spec (due t) (now s + Z.max 0 e1)) as [D1|D1].
    + destruct (Z.leb_spec (due t) (now s + Z.max 0 (e1 + e2))) as [_|D2];
        [|lia].
      rewrite (fire_single _ _ E). rewrite advance_idle by reflexivity.
      unfold set_now. simpl. f_equal. lia.
    + rewrite (advance_single _ t e2) by exact E. simpl.
      replace (now s + Z.max 0 e1 + Z.max 0 e2)
        with (now s + Z.max 0 (e1 + e2)) by lia.
      destruct (due t <=? now s + Z.max 0 (e1 + e2)); reflexivity.
Qed.

(** ** A delayed request, before and after its delay *)

Lemma setStateAfter_waiting_host s v d dt :
  owns_timers s -> d <> 0 -> 0 <= dt < timer_delay d ->
  advance dt (setStateAfter v (Some d) s) =
    set_now (now s + dt) (setStateAfter v (Some d) s).
Proof.
  intros O D H.
  rewrite (setStateAfter_delayed s v d O D).
  erewrite advance_single by reflexivity. simpl.
  destruct (Z.leb_spec (now s + timer_delay d) (now s + Z.max 0 dt)); [lia|].
  unfold set_now. simpl. f_equal. lia.
Qed.

Lemma setStateAfter_elapsed_host s v d e :
  owns_timers s -> d <> 0 -> timer_delay d <= e ->
  advance e (setStateAfter v (Some d) s) =
    mkDelayed v RefNull [] (S (next_id s)) (now s + Z.max 0 e).
Proof.
  intros O D H.
  rewrite (setStateAfter_delayed s v d O D).
  erewrite advance_single by reflexivity. simpl.
  destruct (Z.leb_spec (now s + timer_delay d) (now s + Z.max 0 e)); [|lia].
  erewrite fire_single by reflexivity. reflexivity.
Qed.

Lemma setStateAfter_waiting s v d dt :
  owns_timers s -> 0 <= dt < d -> d <= TIMEOUT_MAX ->
  advance dt (setStateAfter v (Some d) s) =
    set_now (now s + dt) (setStateAfter v (Some d) s).
Proof.
  intros O H B. apply setStateAfter_waiting_host; [exact O | lia |].
  rewrite timer_delay_kept; lia.
Qed.

Lemma setStateAfter_elapsed s v d e :
  owns_timers s -> 0 < d -> d <= e ->
  advance e (setStateAfter v (Some d) s) =
    mkDelayed v RefNull [] (S (next_id s)) (now s + Z.max 0 e).
Proof.
  intros O D H. apply setStateAfter_elapsed_host; [exact O | lia |].
  pose proof (timer_delay_bounds d D). lia.
Qed.

Lemma owns_set_now s (clock : Z) :
  owns_timers s -> owns_timers (set_now clock s).
Proof. intros O. exact O. Qed.

(** ** The properties of useDelayedState *)

(** C1 (last write wins), for delays the host keeps.  From any reachable
    instance, request [v1] after [d1 <= 2^31 - 1] milliseconds and,
    [dt < d1] milliseconds later, request [v2] with delay [d2].  Up to the
    second request the value is the one the instance started with.  If [d2]
    is absent or 0 the value is [v2] at once and stays [v2].  If
    [0 < d2 <= 2^31 - 1] the value is still the starting one for every
    [e < d2] after the second request and is [v2] for every [e >= d2].  So
    the value only ever goes from the starting value to [v2]: the request
    for [v1] never shows. *)
Theorem setStateAfter_last_write_wins s v1 d1 dt v2 d2 :
  reachable s ->
  0 <= dt < d1 ->
  d1 <= TIMEOUT_MAX ->
  let s1 := advance dt (setStateAfter v1 (Some d1) s) in
  let s2 := setStateAfter v2 d2 s1 in
  state s1 = state s /\
  (d2 = None \/ d2 = Some 0 ->
     state s2 = v2 /\ forall e, state (advance e s2) = v2) /\
  (forall d, d2 = Some d -> 0 < d <= TIMEOUT_MAX ->
     state s2 = state s /\
     (forall e, 0 <= e < d -> state (advance e s2) = state s) /\
     (forall e, d <= e -> state (advance e s2) = v2)).
Proof.
  intros R H B1 s1 s2. pose proof (reachable_owns s R) as O.
  assert (E1 : s1 = set_now (now s + dt) (setStateAfter v1 (Some d1) s))
    by (apply setStateAfter_waiting; assumption).
  assert (O1 : owns_timers s1)
    by (rewrite E1; apply owns_set_now, owns_setStateAfter, O).
  assert (V1 : state s1 = state s).
  { rewrite E1, (setStateAfter_delayed s v1 d1 O) by lia. reflexivity. }
  split; [exact V1|]. split.
  - intros D.
    assert (E2 : s2 = setStateAfter v2 None s1)
      by (destruct D as [->| ->]; reflexivity).
    rewrite E2, (setStateAfter_immediate s1 v2 O1).
    split; [reflexivity|]. intros e. apply idle_forever. reflexivity.
  - intros d -> [D B2]. subst s2. split; [|split].
    + rewrite (setStateAfter_delayed s1 v2 d O1) by lia. exact V1.
    + intros e He. rewrite (setStateAfter_waiting s1 v2 d e O1 He B2).
      rewrite (setStateAfter_delayed s1 v2 d O1) by lia. exact V1.
    + intros e He. rewrite (setStateAfter_elapsed s1 v2 d e O1) by lia.
      reflexivity.
Qed.

(** C4 (one pending timer).  In every reachable instance at most one timer
    is armed; the cancel that opens [setStateAfter] leaves none, so the only
    timer armed after a [setStateAfter] is the one that call has just
    armed. *)
Theorem single_pending_timer s :
  reachable s ->
  (List.length (timers s) <= 1)%nat /\
  timers (cancelSetState s) = [] /\
  (forall v d t, In t (timers (setStateAfter v d s)) ->
     tid t = next_id s /\ cb_newState t = v /\
     timers (setStateAfter v d s) = [t]).
Proof.
  intros R. pose proof (reachable_owns s R) as O. split; [|split].
  - destruct O as [_ [E | (t & E & _)]]; rewrite E; simpl; lia.
  - apply cancelSetState_clears, O.
  - intros v d t. apply setStateAfter_timers, O.
Qed.

(** C5 (zero delay is no delay).  On every instance [setStateAfter v 0]
    and [setStateAfter v] give the same instance, in which the value is [v]
    at once and the slot holds no handle; on a reachable instance no timer
    is armed afterwards either. *)
Theorem zero_delay_is_no_delay s v :
  setStateAfter v (Some 0) s = setStateAfter v None s /\
  state (setStateAfter v (Some 0) s) = v /\
  truthy (timeoutRef (setStateAfter v (Some 0) s)) = false /\
  (reachable s -> timers (setStateAfter v (Some 0) s) = []).
Proof.
  rewrite setStateAfter_zero_undefined.
  split; [reflexivity|]. split; [reflexivity|].
  split; [apply cancelSetState_falsy|].
  intros R. rewrite (setStateAfter_immediate s v (reachable_owns s R)).
  reflexivity.
Qed.

(** C6 (cancel is effective and keeps the value), for delays the host
    keeps.  On every reachable instance [cancelSetState] keeps the value,
    leaves no timer armed and no handle in the slot, and changes nothing at
    all when the slot holds no handle.  Hence after [setStateAfter v d]
    with [0 < d <= 2^31 - 1] and a cancel [dt < d] milliseconds later, the
    value is the starting one at the time of the cancel and at every later
    time. *)
Theorem cancelSetState_effective s v d dt :
  reachable s ->
  0 <= dt < d ->
  d <= TIMEOUT_MAX ->
  (state (cancelSetState s) = state s /\
   timers (cancelSetState s) = [] /\
   truthy (timeoutRef (cancelSetState s)) = false) /\
  (truthy (timeoutRef s) = false -> cancelSetState s = s) /\
  let s' := cancelSetState (advance dt (setStateAfter v (Some d) s)) in
  timers (advance dt (setStateAfter v (Some d) s)) <> [] /\
  state s' = state s /\
  timers s' = [] /\
  forall e, state (advance e s') = state s.
Proof.
  intros R H B. pose proof (reachable_owns s R) as O. split; [|split].
  - split; [apply cancelSetState_state|].
    split; [apply cancelSetState_clears, O | apply cancelSetState_falsy].
  - apply cancelSetState_unarmed.
  - intros s'.
    assert (O1 : owns_timers (advance dt (setStateAfter v (Some d) s)))
      by apply owns_advance, owns_setStateAfter, O.
    assert (V : state s' = state s).
    { unfold s'. rewrite cancelSetState_state.
      rewrite (setStateAfter_waiting s v d dt O H B).
      rewrite (setStateAfter_delayed s v d O) by lia. reflexivity. }
    assert (E : timers s' = []) by apply cancelSetState_clears, O1.
    split; [|split; [exact V | split; [exact E|]]].
    + rewrite (setStateAfter_waiting s v d dt O H B).
      rewrite (setStateAfter_delayed s v d O) by lia. discriminate.
    + intros e. rewrite (idle_forever s' e E). exact V.
Qed.

(** C7 (teardown silences).  When a reachable instance with a timer armed
    is unmounted, the cleanup takes that timer off the host's table and
    keeps the value; from then on no passage of time changes the value. *)
Theorem unmount_silences s :
  reachable s ->
  timers s <> [] ->
  timers (unmount s) = [] /\
  state (unmount s) = state s /\
  forall e, state (advance e (unmount s)) = state s.
Proof.
  intros R _. pose proof (reachable_owns s R) as O.
  pose proof (unmount_clears s O) as E.
  split; [exact E|]. split; [apply unmount_state|].
  intros e. rewrite (idle_forever _ e E). apply unmount_state.
Qed.

(** C8 (a delayed set defers the write).  On every reachable instance
    [setStateAfter v d] with [d > 0] keeps the value and arms one timer,
    due when the delay the host keeps for [d] has passed, whose handle goes
    into the slot.  Nothing but the clock changes before that.  Running the
    timer sets the value to [v] and the slot to [null], and that is what
    has happened once the kept delay has passed.  The kept delay is [d]
    itself up to [2^31 - 1]. *)
Theorem setStateAfter_defers s v d :
  reachable s ->
  0 < d ->
  let s1 := setStateAfter v (Some d) s in
  let t := mkTimer (next_id s) (now s + timer_delay d) v in
  state s1 = state s /\
  timers s1 = [t] /\
  timeoutRef s1 = RefHandle (tid t) /\
  (forall e, 0 <= e < timer_delay d -> advance e s1 = set_now (now s + e) s1) /\
  (state (fire t s1) = v /\ timeoutRef (fire t s1) = RefNull /\
   timers (fire t s1) = []) /\
  (forall e, timer_delay d <= e ->
     advance e s1 = set_now (now s + e) (fire t s1)) /\
  (d <= TIMEOUT_MAX -> timer_delay d = d).
Proof.
  intros R D s1 t. pose proof (reachable_owns s R) as O.
  assert (E : s1 = mkDelayed (state s) (RefHandle (next_id s)) [t]
                     (S (next_id s)) (now s)).
  { unfold s1, t. rewrite (setStateAfter_delayed s v d O) by lia.
    reflexivity. }
  assert (F : fire t s1 = mkDelayed v RefNull [] (S (next_id s)) (now s))
    by (rewrite (fire_single s1 t), E; [reflexivity | rewrite E; reflexivity]).
  split; [rewrite E; reflexivity|].
  split; [rewrite E; reflexivity|].
  split; [rewrite E; reflexivity|].
  split; [|split; [|split]].
  - intros e He. unfold s1.
    rewrite (setStateAfter_waiting_host s v d e O) by (lia || exact He).
    reflexivity.
  - rewrite F. auto.
  - intros e He. rewrite F. unfold s1.
    rewrite (setStateAfter_elapsed_host s v d e O) by (lia || exact He).
    pose proof (timer_delay_positive d).
    unfold set_now. simpl. rewrite Z.max_r by lia. reflexivity.
  - intros B. apply timer_delay_kept. lia.
Qed.

(** C10 (cancel is idempotent).  On every instance, reachable or not, a
    second [cancelSetState] changes nothing: value, slot, timer table,
    next handle and clock are those left by the first. *)
Theorem cancelSetState_idempotent s :
  cancelSetState (cancelSetState s) = cancelSetState s.
Proof.
  apply cancelSetState_unarmed, cancelSetState_falsy.
Qed.

End DelayedFacts.

(** * Facts about useFollowState *)

Section FollowFacts.

Variable T : Type.
Variable strict_eq : T -> T -> bool.
Implicit Types (c x : FollowHook T) (v : T).

Lemma revertStateToFollow_delayed c :
  f_delayed (revertStateToFollow strict_eq c) = cancelSetState (f_delayed c).
Proof.
  unfold revertStateToFollow.
  destruct (strict_eq (r_state c) (r_followState c)); reflexivity.
Qed.

Lemma revertStateToFollow_f_state c :
  f_state (revertStateToFollow strict_eq c) =
    if strict_eq (r_state c) (r_followState c)
    then f_state c else r_followState c.
Proof.
  unfold revertStateToFollow.
  destruct (strict_eq (r_state c) (r_followState c)); reflexivity.
Qed.

Lemma forward_mount v : follows_forward (useFollowState v).
Proof. split; [apply owns_mount | intros t []]. Qed.

Lemma forward_setStateAndFollow c v d :
  follows_forward c -> follows_forward (setStateAndFollow v d c).
Proof.
  intros [O _]. split; simpl.
  - apply owns_setStateAfter, O.
  - intros t H. apply (setStateAfter_timers T _ v d t O H).
Qed.

Lemma forward_revertStateToFollow c :
  follows_forward c -> follows_forward (revertStateToFollow strict_eq c).
Proof.
  intros [O _]. split; rewrite revertStateToFollow_delayed.
  - apply owns_cancelSetState, O.
  - rewrite (cancelSetState_clears T _ O). intros t [].
Qed.

Lemma forward_render c : follows_forward c -> follows_forward (render c).
Proof. intros F. exact F. Qed.

Lemma forward_elapse c dt : follows_forward c -> follows_forward (elapse dt c).
Proof.
  intros [O F]. split; simpl.
  - apply owns_advance, O.
  - intros t H. apply F, (advance_timers_incl T _ dt t O H).
Qed.

Lemma forward_unmount c : follows_forward c -> follows_forward (unmount_follow c).
Proof.
  intros [O _]. split; simpl.
  - apply owns_unmount, O.
  - rewrite (unmount_clears T _ O). intros t [].
Qed.

Lemma follow_reachable_forward c :
  follow_reachable strict_eq c -> follows_forward c.
Proof.
  induction 1.
  - apply forward_mount.
  - now apply forward_setStateAndFollow.
  - now apply forward_revertStateToFollow.
  - now apply forward_render.
  - now apply forward_elapse.
  - now apply forward_unmount.
Qed.

(** ** The properties of useFollowState *)

(** C2 (revert), for a delay the host keeps and a revert called from a
    render made after the request.  [strict_eq] is taken to hold of equal
    values only.  Start from a reachable instance whose following value is
    [v1]; call [setStateAndFollow v2 d] with [0 < d <= 2^31 - 1], let React
    render and [dt < d] milliseconds pass: the render shows the immediate value [v2] beside the
    following value [v1], and a timer is armed.  [revertStateToFollow] then
    leaves no timer armed and both cells at [v1], and every later render
    shows [v1] twice, whatever time passes.  The write is conditional: on
    any instance at all, the immediate cell is overwritten with the rendered
    following value when the two rendered values are not strictly equal,
    and is left alone when they are. *)
Theorem revertStateToFollow_semantics c v2 d dt :
  (forall a b, strict_eq a b = true -> a = b) ->
  follow_reachable strict_eq c ->
  0 <= dt < d ->
  d <= TIMEOUT_MAX ->
  let v1 := state (f_delayed c) in
  let c1 := elapse dt (render (setStateAndFollow v2 (Some d) c)) in
  let c2 := revertStateToFollow strict_eq c1 in
  (r_state c1 = v2 /\ r_followState c1 = v1 /\ timers (f_delayed c1) <> []) /\
  (timers (f_delayed c2) = [] /\ f_state c2 = v1 /\ state (f_delayed c2) = v1) /\
  (forall e, r_state (elapse e c2) = v1 /\ r_followState (elapse e c2) = v1) /\
  (forall x, f_state (revertStateToFollow strict_eq x) =
             if strict_eq (r_state x) (r_followState x)
             then f_state x else r_followState x).
Proof.
  intros Sound R H B v1 c1 c2.
  destruct (follow_reachable_forward c R) as [O _].
  set (s1 := advance dt (setStateAfter v2 (Some d) (f_delayed c))).
  assert (W : s1 = set_now (now (f_delayed c) + dt)
                     (setStateAfter v2 (Some d) (f_delayed c)))
    by apply (setStateAfter_waiting T _ v2 d dt O H B).
  assert (O1 : owns_timers s1)
    by apply owns_advance, owns_setStateAfter, O.
  assert (V1 : state s1 = v1).
  { rewrite W, (setStateAfter_delayed T _ v2 d O) by lia. reflexivity. }
  assert (A1 : timers s1 <> []).
  { rewrite W, (setStateAfter_delayed T _ v2 d O) by lia. discriminate. }
  assert (D2 : f_delayed c2 = cancelSetState s1)
    by apply revertStateToFollow_delayed.
  assert (E2 : timers (f_delayed c2) = [])
    by (rewrite D2; apply cancelSetState_clears, O1).
  assert (F2 : state (f_delayed c2) = v1)
    by (rewrite D2, cancelSetState_state; exact V1).
  assert (I2 : f_state c2 = v1).
  { unfold c2. rewrite revertStateToFollow_f_state.
    change (r_state c1) with v2. change (r_followState c1) with (state s1).
    change (f_state c1) with v2. rewrite V1.
    destruct (strict_eq v2 v1) eqn:Q; [apply Sound, Q | reflexivity]. }
  split; [|split; [|split]].
  - split; [reflexivity|]. split; [exact V1 | exact A1].
  - auto.
  - intros e. split; [exact I2|].
    change (r_followState (elapse e c2)) with (state (advance e (f_delayed c2))).
    rewrite (idle_forever T _ e E2). exact F2.
  - apply revertStateToFollow_f_state.
Qed.

(** C3 (follow divergence and convergence), for a delay the host keeps.
    On a reachable instance [setStateAndFollow v d] with
    [0 < d <= 2^31 - 1] writes [v] to the immediate cell at
    once and leaves the following cell at its prior value; a render shows
    [v] beside the prior value, and so does every render while less than
    [d] has passed; once [d] or more has passed the render shows [v]
    twice. *)
Theorem setStateAndFollow_diverges_then_converges c v d :
  follow_reachable strict_eq c ->
  0 < d <= TIMEOUT_MAX ->
  let prior := state (f_delayed c) in
  let c1 := setStateAndFollow v (Some d) c in
  (f_state c1 = v /\ state (f_delayed c1) = prior) /\
  (r_state (render c1) = v /\ r_followState (render c1) = prior) /\
  (forall e, 0 <= e < d ->
     r_state (elapse e c1) = v /\ r_followState (elapse e c1) = prior) /\
  (forall e, d <= e ->
     r_state (elapse e c1) = v /\ r_followState (elapse e c1) = v).
Proof.
  intros R [D B] prior c1.
  destruct (follow_reachable_forward c R) as [O _].
  assert (P : state (setStateAfter v (Some d) (f_delayed c)) = prior)
    by (rewrite (setStateAfter_delayed T _ v d O) by lia; reflexivity).
  split; [|split; [|split]].
  - split; [reflexivity | exact P].
  - split; [reflexivity | exact P].
  - intros e He. split; [reflexivity|].
    change (r_followState (elapse e c1))
      with (state (advance e (setStateAfter v (Some d) (f_delayed c)))).
    rewrite (setStateAfter_waiting T _ v d e O He B). exact P.
  - intros e He. split; [reflexivity|].
    change (r_followState (elapse e c1))
      with (state (advance e (setStateAfter v (Some d) (f_delayed c)))).
    rewrite (setStateAfter_elapsed T _ v d e O) by lia. reflexivity.
Qed.

(** C9 (the follower heads for the immediate value).  In every instance
    reachable through [setStateAndFollow], [revertStateToFollow], renders,
    the passage of time and unmounting, a timer that is armed carries the
    value of the immediate cell.  So running it makes the following cell
    equal to the immediate cell, and a render after its due time shows the
    same value twice. *)
Theorem follow_timer_targets_immediate c t :
  follow_reachable strict_eq c ->
  In t (timers (f_delayed c)) ->
  cb_newState t = f_state c /\
  state (fire t (f_delayed c)) = f_state c /\
  (forall dt, due t <= now (f_delayed c) + dt ->
     r_state (elapse dt c) = f_state c /\
     r_followState (elapse dt c) = f_state c).
Proof.
  intros R H. destruct (follow_reachable_forward c R) as [O F].
  pose proof (F t H) as Ft.
  split; [exact Ft|]. split; [exact Ft|].
  intros dt Hd. split; [reflexivity|].
  change (r_followState (elapse dt c))
    with (state (advance dt (f_delayed c))).
  destruct O as [_ [E | (u & E & _)]]; [rewrite E in H; contradiction|].
  rewrite E in H. destruct H as [->|[]].
  rewrite (advance_single T _ t dt E).
  destruct (Z.leb_spec (due t) (now (f_delayed c) + Z.max 0 dt)); [|lia].
  exact Ft.
Qed.

End FollowFacts.

(** * The scenarios of the specification

    Each general property is applied here to a concrete run. *)

Lemma pending_reachable : reachable pending.
Proof.
  apply reach_advance, reach_setStateAfter, reach_mount.
Defined.

(** Start at 0; [setStateAfter(1, 100)]; at t=50 [setStateAfter(2, 100)]:
    the value is 0 at t=100 and 2 at t=150. *)
Lemma last_write_wins_scenario :
  let s2 := setStateAfter 2 (Some 100) pending in
  reachable (useDelayedState 0) /\ 0 <= 50 < 100 /\ 100 <= TIMEOUT_MAX /\
  state (advance 50 s2) = 0 /\ state (advance 100 s2) = 2.
Proof.
  intros s2.
  assert (R : reachable (useDelayedState 0)) by apply reach_mount.
  assert (H : 0 <= 50 < 100) by lia.
  assert (B : 100 <= TIMEOUT_MAX) by (unfold TIMEOUT_MAX; lia).
  destruct (setStateAfter_last_write_wins Z (useDelayedState 0)
              1 100 50 2 (Some 100) R H B) as (_ & _ & L).
  assert (D2 : 0 < 100 <= TIMEOUT_MAX) by (unfold TIMEOUT_MAX; lia).
  destruct (L 100 eq_refl D2) as (_ & W & A).
  split; [exact R|]. split; [exact H|]. split; [exact B|].
  split; [apply W; lia | apply A; lia].
Defined.

Lemma single_pending_timer_scenario :
  reachable pending /\
  (List.length (timers pending) <= 1)%nat /\
  timers (cancelSetState pending) = [].
Proof.
  destruct (single_pending_timer Z pending pending_reachable) as (A & B & _).
  split; [exact pending_reachable|]. split; [exact A | exact B].
Defined.

Lemma zero_delay_scenario :
  reachable pending /\
  setStateAfter 7 (Some 0) pending = setStateAfter 7 None pending /\
  state (setStateAfter 7 (Some 0) pending) = 7 /\
  timers (setStateAfter 7 (Some 0) pending) = [].
Proof.
  destruct (zero_delay_is_no_delay Z pending 7) as (A & B & _ & C).
  split; [exact pending_reachable|]. split; [exact A|].
  split; [exact B | exact (C pending_reachable)].
Defined.

(** Start at 0; [setStateAfter(1, 100)]; at t=50 [cancelSetState()]: the
    value is 0 at t=100 and later. *)
Lemma cancel_scenario :
  reachable (useDelayedState 0) /\ 0 <= 50 < 100 /\ 100 <= TIMEOUT_MAX /\
  state (advance 50 (cancelSetState pending)) = 0 /\
  state (advance 1000 (cancelSetState pending)) = 0.
Proof.
  assert (R : reachable (useDelayedState 0)) by apply reach_mount.
  assert (H : 0 <= 50 < 100) by lia.
  assert (B : 100 <= TIMEOUT_MAX) by (unfold TIMEOUT_MAX; lia).
  destruct (cancelSetState_effective Z (useDelayedState 0) 1 100 50 R H B)
    as (_ & _ & _ & _ & _ & L).
  split; [exact R|]. split; [exact H|]. split; [exact B|].
  split; apply L.
Defined.

Lemma unmount_scenario :
  reachable pending /\ timers pending <> [] /\
  timers (unmount pending) = [] /\
  state (advance 50 (unmount pending)) = 0.
Proof.
  assert (A : timers pending <> []) by (vm_compute; discriminate).
  destruct (unmount_silences Z pending pending_reachable A) as (E & _ & L).
  split; [exact pending_reachable|]. split; [exact A|].
  split; [exact E | apply L].
Defined.

Lemma defers_scenario :
  let s1 := setStateAfter 1 (Some 100) (useDelayedState 0) in
  reachable (useDelayedState 0) /\ 0 < 100 /\
  state s1 = 0 /\
  timers s1 = [mkTimer 1 100 1] /\
  state (fire (mkTimer 1 100 1) s1) = 1.
Proof.
  intros s1.
  assert (R : reachable (useDelayedState 0)) by apply reach_mount.
  assert (H : 0 < 100) by lia.
  destruct (setStateAfter_defers Z (useDelayedState 0) 1 100 R H)
    as (A & B & _ & _ & (C & _) & _).
  split; [exact R|]. split; [exact H|].
  split; [exact A|]. split; [exact B | exact C].
Defined.

Lemma eqb_sound (a b : string) : String.eqb a b = true -> a = b.
Proof. apply String.eqb_eq. Defined.

Lemma start_reachable : follow_reachable String.eqb start.
Proof. apply freach_mount. Defined.

(** Start at the empty string; [setStateAndFollow("hi", 1000)]; at t=500
    [revertStateToFollow()]: both values are empty, and still are at
    t=1000. *)
Lemma revert_scenario :
  let c1 := elapse 500 (render (setStateAndFollow hi (Some 1000) start)) in
  let c2 := revertStateToFollow String.eqb c1 in
  follow_reachable String.eqb start /\ 0 <= 500 < 1000 /\
  1000 <= TIMEOUT_MAX /\
  (r_state c1 = hi /\ r_followState c1 = EmptyString) /\
  (f_state c2 = EmptyString /\ state (f_delayed c2) = EmptyString) /\
  (r_state (elapse 500 c2) = EmptyString /\
   r_followState (elapse 500 c2) = EmptyString).
Proof.
  intros c1 c2.
  assert (H : 0 <= 500 < 1000) by lia.
  assert (B : 1000 <= TIMEOUT_MAX) by (unfold TIMEOUT_MAX; lia).
  destruct (revertStateToFollow_semantics string String.eqb start hi 1000 500
              eqb_sound start_reachable H B)
    as ((A1 & A2 & _) & (_ & B1 & B2) & L & _).
  split; [exact start_reachable|]. split; [exact H|]. split; [exact B|].
  split; [split; [exact A1 | exact A2]|].
  split; [split; [exact B1 | exact B2]|].
  apply L.
Defined.

(** [setStateAndFollow("hi", 1000)] from the empty string: "hi" beside the
    empty string at t=999, "hi" twice at t=1000. *)
Lemma follow_scenario :
  let c1 := setStateAndFollow hi (Some 1000) start in
  follow_reachable String.eqb start /\ 0 < 1000 <= TIMEOUT_MAX /\
  (r_state (elapse 999 c1) = hi /\
   r_followState (elapse 999 c1) = EmptyString) /\
  (r_state (elapse 1000 c1) = hi /\ r_followState (elapse 1000 c1) = hi).
Proof.
  intros c1.
  assert (H : 0 < 1000 <= TIMEOUT_MAX) by (unfold TIMEOUT_MAX; lia).
  destruct (setStateAndFollow_diverges_then_converges string String.eqb
              start hi 1000 start_reachable H) as (_ & _ & B & A).
  split; [exact start_reachable|]. split; [exact H|].
  split; [apply B; lia | apply A; lia].
Defined.

Lemma follow_timer_scenario :
  let c1 := setStateAndFollow hi (Some 1000) start in
  let t := mkTimer 1 1000 hi in
  follow_reachable String.eqb c1 /\ In t (timers (f_delayed c1)) /\
  cb_newState t = f_state c1 /\
  state (fire t (f_delayed c1)) = f_state c1.
Proof.
  intros c1 t.
  assert (R : follow_reachable String.eqb c1)
    by apply freach_setStateAndFollow, start_reachable.
  assert (H : In t (timers (f_delayed c1))) by (simpl; left; reflexivity).
  destruct (follow_timer_targets_immediate string String.eqb c1 t R H)
    as (A & B & _).
  split; [exact R|]. split; [exact H|]. split; [exact A | exact B].
Defined.

(** The functions read the values of the render that made them.  A
    [revertStateToFollow] called by the handler that has just called
    [setStateAndFollow], before React renders again, still sees equal
    values: it clears the timer and writes nothing, and the pair stays
    apart. *)
Example revert_before_render :
  let c := render (revertStateToFollow String.eqb
                     (setStateAndFollow hi (Some 1000) start)) in
  r_state c = hi /\ r_followState c = EmptyString /\
  timers (f_delayed c) = [].
Proof. repeat split. Qed.

(** * Further properties of useDelayedState *)

Section DelayedRuns.

Variable T : Type.
Implicit Types (s : DelayedHook T) (v : T).

Lemma last_cons_default (A : Type) (l : list A) (a d : A) :
  last (a :: l) d = last l a.
Proof.
  revert a d. induction l as [|b l IH]; intros a d; [reflexivity|].
  change (last (a :: b :: l) d) with (last (b :: l) d).
  rewrite (IH b d), (IH b a). reflexivity.
Qed.

Lemma setStateAfter_delayed_state s v d :
  owns_timers s -> d <> 0 -> state (setStateAfter v (Some d) s) = state s.
Proof.
  intros O D. rewrite (setStateAfter_delayed T s v d O D). reflexivity.
Qed.

Lemma setStateAfter_waiting_state s v d e :
  owns_timers s -> 0 <= e < d -> d <= TIMEOUT_MAX ->
  state (advance e (setStateAfter v (Some d) s)) = state s.
Proof.
  intros O H B. rewrite (setStateAfter_waiting T s v d e O H B).
  rewrite (setStateAfter_delayed T s v d O) by lia. reflexivity.
Qed.

(** A burst whose gaps are all shorter than the delay amounts to one
    request, for the last value, on an instance that still shows the
    starting value. *)
Lemma burst_collapses d (reqs : list (Z * T)) :
  0 < d <= TIMEOUT_MAX ->
  Forall (fun r => 0 <= fst r < d) reqs ->
  forall s v0, owns_timers s ->
  exists s1, owns_timers s1 /\ state s1 = state s /\
    burst d reqs (setStateAfter v0 (Some d) s) =
      setStateAfter (last (map snd reqs) v0) (Some d) s1.
Proof.
  intros [D B] F. induction F as [|[gap v] rest G _ IH]; intros s v0 O.
  - exists s. auto.
  - simpl in G.
    set (s1 := advance gap (setStateAfter v0 (Some d) s)).
    assert (O1 : owns_timers s1) by apply owns_advance, owns_setStateAfter, O.
    assert (V1 : state s1 = state s).
    { apply setStateAfter_waiting_state; assumption. }
    destruct (IH s1 v O1) as (s2 & O2 & V2 & E).
    exists s2. split; [exact O2|]. split; [congruence|].
    change (map snd ((gap, v) :: rest)) with (v :: map snd rest).
    rewrite last_cons_default. exact E.
Qed.

(** X1 (debouncing), for a delay the host keeps ([0 < d <= 2^31 - 1]).
    After [setStateAfter(v0, d)] on a reachable instance and any burst of further [setStateAfter(v, d)] calls, each less than
    [d] after the one before, the value is still the starting one, during
    the burst and for every [e < d] after its last call; from [d] after the
    last call on, the value is the one last requested.  No value requested
    in between ever shows. *)
Theorem burst_debounces s d v0 (reqs : list (Z * T)) :
  reachable s ->
  0 < d <= TIMEOUT_MAX ->
  Forall (fun r => 0 <= fst r < d) reqs ->
  let run k := burst d (firstn k reqs) (setStateAfter v0 (Some d) s) in
  let s' := burst d reqs (setStateAfter v0 (Some d) s) in
  (forall k e, 0 <= e < d -> state (advance e (run k)) = state s) /\
  (forall e, 0 <= e < d -> state (advance e s') = state s) /\
  (forall e, d <= e -> state (advance e s') = last (map snd reqs) v0).
Proof.
  intros R D F run s'. pose proof (reachable_owns T s R) as O.
  pose proof D as [D0 B].
  assert (W : forall l, Forall (fun r => 0 <= fst r < d) l ->
            forall e, 0 <= e < d ->
            state (advance e (burst d l (setStateAfter v0 (Some d) s)))
            = state s).
  { intros l Fl e He.
    destruct (burst_collapses d l D Fl s v0 O) as (s1 & O1 & V1 & ->).
    rewrite (setStateAfter_waiting_state s1 _ d e O1 He B). exact V1. }
  split; [|split].
  - intros k e He. apply W; [|exact He].
    clear -F. revert k. induction F as [|r l Hr _ IH]; intros [|k]; simpl;
      constructor; auto.
  - apply W, F.
  - intros e He. unfold s'.
    destruct (burst_collapses d reqs D F s v0 O) as (s1 & O1 & _ & ->).
    rewrite (setStateAfter_elapsed T s1 _ d e O1) by lia. reflexivity.
Qed.

(** X2 (show now, replace later).  On a reachable instance
    [setStateAfter(v)] followed at once by [setStateAfter(later, d)] with
    [0 < d <= 2^31 - 1] shows [v] immediately and for every [e < d], and [later] from
    [d] on: the delayed call cancels nothing of the immediate one. *)
Theorem immediate_then_delayed s v later d :
  reachable s ->
  0 < d <= TIMEOUT_MAX ->
  let s' := setStateAfter later (Some d) (setStateAfter v None s) in
  state s' = v /\
  (forall e, 0 <= e < d -> state (advance e s') = v) /\
  (forall e, d <= e -> state (advance e s') = later).
Proof.
  intros R [D B] s'. pose proof (reachable_owns T s R) as O.
  assert (O1 : owns_timers (setStateAfter v None s))
    by apply owns_setStateAfter, O.
  assert (V1 : state (setStateAfter v None s) = v)
    by (rewrite (setStateAfter_immediate T s v O); reflexivity).
  split; [|split].
  - unfold s'. rewrite setStateAfter_delayed_state by (exact O1 || lia).
    exact V1.
  - intros e He. unfold s'.
    rewrite (setStateAfter_waiting_state _ later d e O1 He B). exact V1.
  - intros e He. unfold s'.
    rewrite (setStateAfter_elapsed T _ later d e O1) by lia. reflexivity.
Qed.

(** X3 (a late cancel undoes nothing).  Once the delay of a request has
    passed, [cancelSetState] is the identity: the value stays the one the
    timer wrote. *)
Theorem cancel_after_fire s v d e :
  reachable s ->
  0 < d <= e ->
  let s' := advance e (setStateAfter v (Some d) s) in
  cancelSetState s' = s' /\ state (cancelSetState s') = v.
Proof.
  intros R H s'. pose proof (reachable_owns T s R) as O.
  assert (E : s' = mkDelayed v RefNull [] (S (next_id s)) (now s + Z.max 0 e))
    by (apply setStateAfter_elapsed; [exact O | lia | lia]).
  rewrite E. split; reflexivity.
Qed.

(** ** The slot as a marker *)

Lemma mounted_reachable s : mounted s -> reachable s.
Proof.
  induction 1.
  - apply reach_mount.
  - now apply reach_setStateAfter.
  - now apply reach_cancelSetState.
  - now apply reach_advance.
Qed.

Lemma mounted_idle_falsy s :
  mounted s -> timers s = [] -> truthy (timeoutRef s) = false.
Proof.
  induction 1 as [v|s v d M IH|s M IH|s dt M IH]; intros E.
  - reflexivity.
  - pose proof (reachable_owns T s (mounted_reachable s M)) as O.
    destruct d as [d|].
    + destruct (Z.eq_dec d 0) as [->|D].
      * rewrite setStateAfter_zero_undefined, (setStateAfter_immediate T s v O).
        apply cancelSetState_falsy.
      * rewrite (setStateAfter_delayed T s v d O D) in E. discriminate.
    + rewrite (setStateAfter_immediate T s v O). apply cancelSetState_falsy.
  - apply cancelSetState_falsy.
  - pose proof (reachable_owns T s (mounted_reachable s M)) as O.
    destruct O as [_ [E0 | (t & E0 & _)]].
    + rewrite (advance_idle T s dt E0). apply IH, E0.
    + rewrite (advance_single T s t dt E0) in E |- *.
      destruct (due t <=? now s + Z.max 0 dt).
      * rewrite (fire_single T s t E0). reflexivity.
      * simpl in E. rewrite E0 in E. discriminate.
Qed.

(** X4 (the slot tells whether a timer is armed).  In every mounted
    instance [timeoutRef.current] is falsy exactly when no timer is armed;
    when none is, [cancelSetState] and the cleanup change nothing. *)
Theorem slot_tracks_timer s :
  mounted s ->
  (truthy (timeoutRef s) = false <-> timers s = []) /\
  (timers s = [] -> cancelSetState s = s /\ unmount s = s).
Proof.
  intros M. pose proof (reachable_owns T s (mounted_reachable s M)) as O.
  assert (B : truthy (timeoutRef s) = false -> timers s = []).
  { destruct O as [_ [E | (t & E & Rf & N)]]; [auto|].
    rewrite Rf, (truthy_handle _ N). discriminate. }
  split; [split; [exact B | apply mounted_idle_falsy, M]|].
  intros E. pose proof (mounted_idle_falsy s M E) as Fy.
  split; [apply cancelSetState_unarmed, Fy|].
  unfold unmount. destruct (timeoutRef s) as [| |h]; try reflexivity.
  rewrite Fy. reflexivity.
Qed.

End DelayedRuns.

(** ** The effect of the example application *)

Lemma retrigger_is_last (gaps : list Z) :
  forall s, reachable s ->
  exists s0, reachable s0 /\ retrigger gaps (flagUpdating s) = flagUpdating s0.
Proof.
  induction gaps as [|gap rest IH]; intros s R.
  - exists s. auto.
  - simpl. apply IH. apply reach_advance.
    unfold flagUpdating. now do 2 apply reach_setStateAfter.
Qed.

(** X5 (the updating flag of the example).  However often the effect of
    [App.js] has run, and whatever the pauses between the runs, after its
    last run the flag is [true] at once and for every [e < 1000], and
    [false] from 1000 ms on. *)
Theorem updating_flag (gaps : list Z) (s : DelayedHook bool) :
  reachable s ->
  let s' := retrigger gaps (flagUpdating s) in
  state s' = true /\
  (forall e, 0 <= e < 1000 -> state (advance e s') = true) /\
  (forall e, 1000 <= e -> state (advance e s') = false).
Proof.
  intros R s'. unfold s'.
  assert (B : 1000 <= TIMEOUT_MAX) by (unfold TIMEOUT_MAX; lia).
  destruct (retrigger_is_last gaps s R) as (s0 & R0 & ->).
  pose proof (reachable_owns bool s0 R0) as O. unfold flagUpdating.
  assert (O1 : owns_timers (setStateAfter true None s0))
    by apply owns_setStateAfter, O.
  assert (V1 : state (setStateAfter true None s0) = true)
    by (rewrite (setStateAfter_immediate bool s0 true O); reflexivity).
  split; [|split].
  - rewrite setStateAfter_delayed_state by (exact O1 || lia). exact V1.
  - intros e He.
    rewrite (setStateAfter_waiting_state bool _ false 1000 e O1 He B).
    exact V1.
  - intros e He.
    rewrite (setStateAfter_elapsed bool _ false 1000 e O1) by lia.
    reflexivity.
Qed.

(** * Further properties of useFollowState *)

Section FollowRuns.

Variable T : Type.
Variable strict_eq : T -> T -> bool.
Implicit Types (c : FollowHook T) (v : T).

Lemma typing_delayed d (keys : list (Z * T)) c :
  f_delayed (typing d keys c) = burst d keys (f_delayed c).
Proof.
  revert c. induction keys as [|[gap v] rest IH]; intros c; [reflexivity|].
  simpl. rewrite IH. reflexivity.
Qed.

Lemma typing_f_state d (keys : list (Z * T)) c :
  f_state (typing d keys c) = last (map snd keys) (f_state c).
Proof.
  revert c. induction keys as [|[gap v] rest IH]; intros c; [reflexivity|].
  change (map snd ((gap, v) :: rest)) with (v :: map snd rest).
  rewrite last_cons_default. simpl. rewrite IH. reflexivity.
Qed.

Lemma typing_rendered d (keys : list (Z * T)) c :
  r_state c = f_state c /\ r_followState c = state (f_delayed c) ->
  r_state (typing d keys c) = f_state (typing d keys c) /\
  r_followState (typing d keys c) = state (f_delayed (typing d keys c)).
Proof.
  revert c. induction keys as [|[gap v] rest IH]; intros c H; [exact H|].
  simpl. apply IH. split; reflexivity.
Qed.

(** X6 (the follower is debounced), for a delay the host keeps
    ([0 < d <= 2^31 - 1]).  After [setStateAndFollow(v0, d)] on a
    reachable follower and any run of further [setStateAndFollow(v, d)]
    calls, each less than [d] after the one before, the render shows the
    last value typed beside the following value from before the run, and
    keeps doing so for every [e < d]; from [d] after the last call on it
    shows the last value twice.  The follower takes none of the values in
    between. *)
Theorem typing_debounces c d v0 (keys : list (Z * T)) :
  follow_reachable strict_eq c ->
  0 < d <= TIMEOUT_MAX ->
  Forall (fun k => 0 <= fst k < d) keys ->
  let prior := state (f_delayed c) in
  let typed := last (map snd keys) v0 in
  let c' := typing d keys (render (setStateAndFollow v0 (Some d) c)) in
  (r_state c' = typed /\ r_followState c' = prior) /\
  (forall e, 0 <= e < d ->
     r_state (elapse e c') = typed /\ r_followState (elapse e c') = prior) /\
  (forall e, d <= e ->
     r_state (elapse e c') = typed /\ r_followState (elapse e c') = typed).
Proof.
  intros R D F prior typed c'. pose proof D as [D0 B].
  destruct (follow_reachable_forward T strict_eq c R) as [O _].
  assert (I : f_state c' = typed) by apply typing_f_state.
  assert (Rd : r_state c' = f_state c' /\
               r_followState c' = state (f_delayed c'))
    by (apply typing_rendered; split; reflexivity).
  assert (E : f_delayed c' =
              burst d keys (setStateAfter v0 (Some d) (f_delayed c)))
    by apply typing_delayed.
  destruct (burst_collapses T d keys D F (f_delayed c) v0 O)
    as (s1 & O1 & V1 & Bu).
  rewrite Bu in E. fold typed in E. destruct Rd as [Rs Rf].
  split; [|split].
  - split; [congruence|]. rewrite Rf, E.
    rewrite setStateAfter_delayed_state by (exact O1 || lia). exact V1.
  - intros e He. split; [exact I|].
    change (r_followState (elapse e c')) with (state (advance e (f_delayed c'))).
    rewrite E, (setStateAfter_waiting_state T s1 typed d e O1 He B). exact V1.
  - intros e He. split; [exact I|].
    change (r_followState (elapse e c')) with (state (advance e (f_delayed c'))).
    rewrite E, (setStateAfter_elapsed T s1 typed d e O1) by lia. reflexivity.
Qed.

(** X7 (no delay, no divergence).  On a reachable follower
    [setStateAndFollow(v)] and [setStateAndFollow(v, 0)] write [v] to both
    cells at once and leave no timer armed, whatever was pending; every
    later render shows [v] twice. *)
Theorem setStateAndFollow_immediate c v d :
  follow_reachable strict_eq c ->
  d = None \/ d = Some 0 ->
  let c1 := setStateAndFollow v d c in
  f_state c1 = v /\ state (f_delayed c1) = v /\
  timers (f_delayed c1) = [] /\
  (forall e, r_state (elapse e c1) = v /\ r_followState (elapse e c1) = v).
Proof.
  intros R D c1.
  destruct (follow_reachable_forward T strict_eq c R) as [O _].
  assert (E : f_delayed c1 = setStateAfter v None (f_delayed c))
    by (destruct D as [->| ->]; reflexivity).
  rewrite (setStateAfter_immediate T _ v O) in E.
  split; [reflexivity|]. rewrite E.
  split; [reflexivity|]. split; [reflexivity|].
  intros e. split; [reflexivity|].
  change (r_followState (elapse e c1)) with (state (advance e (f_delayed c1))).
  rewrite E. apply idle_forever. reflexivity.
Qed.

(** X8 (a revert before the render does not revert).  Take a reachable
    follower whose last render showed strictly equal values and call, from
    that one render, [setStateAndFollow(v, d)] with [d > 0] and then
    [revertStateToFollow()].  The revert clears the timer and, still
    seeing equal values, writes nothing: the immediate cell keeps [v], the
    following cell its prior value, and every later render shows that
    pair. *)
Theorem revert_in_same_handler c v d :
  follow_reachable strict_eq c ->
  strict_eq (r_state c) (r_followState c) = true ->
  0 < d ->
  let prior := state (f_delayed c) in
  let c' := revertStateToFollow strict_eq (setStateAndFollow v (Some d) c) in
  timers (f_delayed c') = [] /\
  f_state c' = v /\ state (f_delayed c') = prior /\
  (forall e, r_state (elapse e c') = v /\ r_followState (elapse e c') = prior).
Proof.
  intros R Q D prior c'.
  destruct (follow_reachable_forward T strict_eq c R) as [O _].
  assert (O1 : owns_timers (setStateAfter v (Some d) (f_delayed c)))
    by apply owns_setStateAfter, O.
  assert (E : f_delayed c' =
              cancelSetState (setStateAfter v (Some d) (f_delayed c)))
    by apply revertStateToFollow_delayed.
  assert (Ti : timers (f_delayed c') = [])
    by (rewrite E; apply cancelSetState_clears, O1).
  assert (I : f_state c' = v).
  { unfold c'. rewrite revertStateToFollow_f_state. simpl. rewrite Q.
    reflexivity. }
  assert (Fo : state (f_delayed c') = prior).
  { rewrite E, cancelSetState_state.
    apply setStateAfter_delayed_state; [exact O | lia]. }
  split; [exact Ti|]. split; [exact I|]. split; [exact Fo|].
  intros e. split; [exact I|].
  change (r_followState (elapse e c')) with (state (advance e (f_delayed c'))).
  rewrite (idle_forever T _ e Ti). exact Fo.
Qed.

(** X9 (unmounting freezes the pair).  Unmounting a reachable follower
    leaves no timer armed and both cells as they are: every later render
    shows the immediate value beside the following value of the moment of
    the unmount, so a follower unmounted while it lags never catches up. *)
Theorem unmount_follow_freezes c :
  follow_reachable strict_eq c ->
  let c' := unmount_follow c in
  timers (f_delayed c') = [] /\
  (forall e, r_state (elapse e c') = f_state c /\
             r_followState (elapse e c') = state (f_delayed c)).
Proof.
  intros R c'.
  destruct (follow_reachable_forward T strict_eq c R) as [O _].
  pose proof (unmount_clears T _ O) as E.
  split; [exact E|]. intros e. split; [reflexivity|].
  change (r_followState (elapse e c'))
    with (state (advance e (unmount (f_delayed c)))).
  rewrite (idle_forever T _ e E). apply unmount_state.
Qed.

End FollowRuns.

(** ** Followers kept in step with their render *)

Section InStep.

Variable T : Type.
Variable strict_eq : T -> T -> bool.
Hypothesis strict_eq_sound : forall a b, strict_eq a b = true -> a = b.
Implicit Types (c : FollowHook T) (v : T).

Lemma settled_first v : settled_when_idle (useFollowState v).
Proof.
  split; [apply forward_mount|]. repeat split.
Qed.

Lemma settled_setStateAndFollow c v d :
  settled_when_idle c -> settled_when_idle (render (setStateAndFollow v d c)).
Proof.
  intros (F & _). pose proof F as [O _].
  split; [apply forward_render, forward_setStateAndFollow, F|].
  split; [reflexivity|]. split; [reflexivity|].
  simpl. destruct d as [d|].
  - destruct (Z.eq_dec d 0) as [->|D].
    + rewrite setStateAfter_zero_undefined, (setStateAfter_immediate T _ v O).
      intros _. split; [apply cancelSetState_falsy | reflexivity].
    + rewrite (setStateAfter_delayed T _ v d O D). discriminate.
  - rewrite (setStateAfter_immediate T _ v O).
    intros _. split; [apply cancelSetState_falsy | reflexivity].
Qed.

Lemma settled_revertStateToFollow c :
  settled_when_idle c ->
  settled_when_idle (render (revertStateToFollow strict_eq c)).
Proof.
  intros (F & Rs & Rf & _).
  split; [apply forward_render, forward_revertStateToFollow, F|].
  split; [reflexivity|]. split; [reflexivity|].
  intros _. simpl.
  rewrite revertStateToFollow_delayed, revertStateToFollow_f_state.
  split; [apply cancelSetState_falsy|].
  rewrite cancelSetState_state.
  destruct (strict_eq (r_state c) (r_followState c)) eqn:Q.
  - apply strict_eq_sound in Q. congruence.
  - exact Rf.
Qed.

Lemma settled_elapse c dt :
  settled_when_idle c -> settled_when_idle (elapse dt c).
Proof.
  intros (F & Rs & Rf & Idle).
  split; [apply (forward_elapse T c dt F)|].
  split; [reflexivity|]. split; [reflexivity|].
  unfold elapse, render, set_f_delayed. cbn [f_delayed f_state].
  destruct F as [[_ [E | (t & E & _)]] Fw].
  - rewrite (advance_idle T _ dt E). intros _. apply Idle, E.
  - rewrite (advance_single T _ t dt E).
    destruct (due t <=? now (f_delayed c) + Z.max 0 dt).
    + rewrite (fire_single T _ t E). intros _. split; [reflexivity|].
      symmetry. apply Fw. rewrite E. left. reflexivity.
    + simpl. rewrite E. discriminate.
Qed.

Lemma in_step_settled c : in_step strict_eq c -> settled_when_idle c.
Proof.
  induction 1.
  - apply settled_first.
  - now apply settled_setStateAndFollow.
  - now apply settled_revertStateToFollow.
  - now apply settled_elapse.
Qed.

(** X10 (the pair is apart only while a timer is armed).  Let [===] hold
    of equal values only.  In a mounted follower whose functions are always
    called from the latest render, whenever no timer is armed the immediate
    and the following value are the same, in the cells and on the
    render. *)
Theorem idle_pair_agrees c :
  in_step strict_eq c ->
  timers (f_delayed c) = [] ->
  f_state c = state (f_delayed c) /\ r_state c = r_followState c.
Proof.
  intros S E. destruct (in_step_settled c S) as (_ & Rs & Rf & Idle).
  destruct (Idle E) as [_ A]. split; [exact A | congruence].
Qed.

(** X11 (reverting a settled follower changes nothing).  Under the same
    conditions, [revertStateToFollow] on a follower with no timer armed
    returns the very same instance. *)
Theorem revert_when_idle c :
  in_step strict_eq c ->
  timers (f_delayed c) = [] ->
  revertStateToFollow strict_eq c = c.
Proof.
  intros S E. destruct (in_step_settled c S) as (_ & Rs & Rf & Idle).
  destruct (Idle E) as [Fy A].
  unfold revertStateToFollow, set_f_delayed.
  rewrite (cancelSetState_unarmed T _ Fy).
  destruct c as [i s rs rf]. simpl in *.
  destruct (strict_eq rs rf); simpl; [reflexivity|]. congruence.
Qed.

End InStep.

(** * Runs for the further properties *)

Lemma keystrokes_quick : Forall (fun r : Z * string => 0 <= fst r < 500) keystrokes.
Proof. repeat constructor; simpl; lia. Defined.

Lemma pending_mounted : mounted pending.
Proof.
  apply mounted_advance, mounted_setStateAfter, mounted_first.
Defined.

Lemma lagging_reachable :
  follow_reachable String.eqb (setStateAndFollow hi (Some 1000) start).
Proof. apply freach_setStateAndFollow, start_reachable. Defined.

Lemma caught_up_in_step :
  in_step String.eqb (elapse 1000 (render (setStateAndFollow hi (Some 1000) start))).
Proof.
  apply in_step_elapse, in_step_setStateAndFollow, in_step_first.
Defined.

(** Four requests 300 ms apart with a delay of 500 ms: nothing shows until
    500 ms after the fourth. *)
Lemma burst_scenario :
  let s' := burst 500 keystrokes
              (setStateAfter hi (Some 500) (useDelayedState EmptyString)) in
  reachable (useDelayedState EmptyString) /\ 0 < 500 <= TIMEOUT_MAX /\
  state (advance 499 s') = EmptyString /\
  state (advance 500 s') = "hel"%string.
Proof.
  intros s'.
  assert (R : reachable (useDelayedState EmptyString)) by apply reach_mount.
  assert (D : 0 < 500 <= TIMEOUT_MAX) by (unfold TIMEOUT_MAX; lia).
  destruct (burst_debounces string (useDelayedState EmptyString) 500 hi
              keystrokes R D keystrokes_quick) as (_ & B & A).
  split; [exact R|]. split; [exact D|].
  split; [apply B; lia | apply A; lia].
Defined.

Lemma immediate_then_delayed_scenario :
  let s' := setStateAfter 6 (Some 2000) (setStateAfter 5 None pending) in
  reachable pending /\ 0 < 2000 <= TIMEOUT_MAX /\
  state s' = 5 /\ state (advance 1999 s') = 5 /\ state (advance 2000 s') = 6.
Proof.
  intros s'.
  assert (D : 0 < 2000 <= TIMEOUT_MAX) by (unfold TIMEOUT_MAX; lia).
  destruct (immediate_then_delayed Z pending 5 6 2000 pending_reachable D)
    as (A & B & C).
  split; [exact pending_reachable|]. split; [exact D|].
  split; [exact A|]. split; [apply B; lia | apply C; lia].
Defined.

Lemma cancel_after_fire_scenario :
  let s' := advance 100 (setStateAfter 1 (Some 100) (useDelayedState 0)) in
  reachable (useDelayedState 0) /\ 0 < 100 <= 100 /\
  cancelSetState s' = s' /\ state (cancelSetState s') = 1.
Proof.
  intros s'.
  assert (R : reachable (useDelayedState 0)) by apply reach_mount.
  assert (H : 0 < 100 <= 100) by lia.
  split; [exact R|]. split; [exact H|].
  exact (cancel_after_fire Z (useDelayedState 0) 1 100 100 R H).
Defined.

Lemma slot_scenario :
  mounted pending /\
  (truthy (timeoutRef pending) = false <-> timers pending = []).
Proof.
  split; [exact pending_mounted|].
  exact (proj1 (slot_tracks_timer Z pending pending_mounted)).
Defined.

Lemma updating_flag_scenario :
  let s' := retrigger [200; 1500] (flagUpdating (useDelayedState false)) in
  reachable (useDelayedState false) /\
  state s' = true /\ state (advance 999 s') = true /\
  state (advance 1000 s') = false.
Proof.
  intros s'.
  assert (R : reachable (useDelayedState false)) by apply reach_mount.
  destruct (updating_flag [200; 1500] (useDelayedState false) R)
    as (A & B & C).
  split; [exact R|]. split; [exact A|].
  split; [apply B; lia | apply C; lia].
Defined.

(** "hi", "h", "he", "hel" typed 300 ms apart with a delay of 500 ms: the
    follower stays empty until 500 ms after the last key. *)
Lemma typing_scenario :
  let c' := typing 500 keystrokes
              (render (setStateAndFollow hi (Some 500) start)) in
  follow_reachable String.eqb start /\ 0 < 500 <= TIMEOUT_MAX /\
  (r_state c' = "hel"%string /\ r_followState c' = EmptyString) /\
  r_followState (elapse 499 c') = EmptyString /\
  r_followState (elapse 500 c') = "hel"%string.
Proof.
  intros c'.
  assert (D : 0 < 500 <= TIMEOUT_MAX) by (unfold TIMEOUT_MAX; lia).
  destruct (typing_debounces string String.eqb start 500 hi keystrokes
              start_reachable D keystrokes_quick) as (A & B & C).
  split; [exact start_reachable|]. split; [exact D|].
  split; [exact A|].
  split; [apply B; lia | apply C; lia].
Defined.

Lemma follow_immediate_scenario :
  let c := setStateAndFollow hi (Some 1000) start in
  let c1 := setStateAndFollow "x"%string None c in
  follow_reachable String.eqb c /\
  state (f_delayed c1) = "x"%string /\ timers (f_delayed c1) = [] /\
  r_followState (elapse 1000 c1) = "x"%string.
Proof.
  intros c c1.
  destruct (setStateAndFollow_immediate string String.eqb c "x"%string None
              lagging_reachable (or_introl eq_refl)) as (_ & A & B & C).
  split; [exact lagging_reachable|]. split; [exact A|].
  split; [exact B | apply C].
Defined.

Lemma revert_in_same_handler_scenario :
  let c' := revertStateToFollow String.eqb
              (setStateAndFollow hi (Some 1000) start) in
  follow_reachable String.eqb start /\
  String.eqb (r_state start) (r_followState start) = true /\ 0 < 1000 /\
  r_state (elapse 1000 c') = hi /\
  r_followState (elapse 1000 c') = EmptyString.
Proof.
  intros c'.
  assert (Q : String.eqb (r_state start) (r_followState start) = true)
    by reflexivity.
  assert (D : 0 < 1000) by lia.
  destruct (revert_in_same_handler string String.eqb start hi 1000
              start_reachable Q D) as (_ & _ & _ & L).
  split; [exact start_reachable|]. split; [exact Q|]. split; [exact D|].
  apply L.
Defined.

Lemma unmount_follow_scenario :
  let c := setStateAndFollow hi (Some 1000) start in
  follow_reachable String.eqb c /\
  timers (f_delayed (unmount_follow c)) = [] /\
  r_state (elapse 1000 (unmount_follow c)) = hi /\
  r_followState (elapse 1000 (unmount_follow c)) = EmptyString.
Proof.
  intros c.
  destruct (unmount_follow_freezes string String.eqb c lagging_reachable)
    as (A & L).
  split; [exact lagging_reachable|]. split; [exact A|]. apply L.
Defined.

Lemma idle_pair_scenario :
  let c := elapse 1000 (render (setStateAndFollow hi (Some 1000) start)) in
  in_step String.eqb c /\ timers (f_delayed c) = [] /\
  f_state c = state (f_delayed c) /\ r_state c = r_followState c.
Proof.
  intros c.
  assert (E : timers (f_delayed c) = []) by reflexivity.
  split; [exact caught_up_in_step|]. split; [exact E|].
  exact (idle_pair_agrees string String.eqb eqb_sound c caught_up_in_step E).
Defined.

Lemma revert_when_idle_scenario :
  let c := elapse 1000 (render (setStateAndFollow hi (Some 1000) start)) in
  in_step String.eqb c /\ timers (f_delayed c) = [] /\
  revertStateToFollow String.eqb c = c.
Proof.
  intros c.
  assert (E : timers (f_delayed c) = []) by reflexivity.
  split; [exact caught_up_in_step|]. split; [exact E|].
  exact (revert_when_idle string String.eqb eqb_sound c caught_up_in_step E).
Defined.

(** * Delays the host does not keep, and reverts before the render

    The runs on which C1, C2, C3 and C6 fail when read for every delay
    and every caller: a delay of 3000000000 ms is beyond [TIMEOUT_MAX], so
    the host arms the timer for 1 ms. *)

(** C1 read for every delay fails at [d1 = 3000000000]: 50 ms after
    [setStateAfter(1, 3000000000)], long before [d1] has passed and before
    any second request, the value is already 1. *)
Lemma last_write_wins_fails_beyond_int32 :
  let s := useDelayedState 0 in
  let s1 := advance 50 (setStateAfter 1 (Some 3000000000) s) in
  reachable s /\ 0 <= 50 < 3000000000 /\
  state s1 = 1 /\ state s1 <> state s /\
  state (advance 50 (setStateAfter 2 (Some 100) s1)) = 1.
Proof.
  intros s s1. split; [apply reach_mount|]. split; [lia|].
  split; [reflexivity|]. split; [vm_compute; discriminate | reflexivity].
Qed.

(** C2 read for every caller and every delay fails on two runs from the
    empty string.  First the
    revert is called by the closure that has just called
    [setStateAndFollow("hi", 1000)]: the timer is cleared, the immediate
    value stays "hi" and is still "hi" 1000 ms later.  Then the delay is
    3000000000 and the revert comes after a render, 50 ms later: the
    following value has become "hi" already and the revert leaves both
    cells at "hi". *)
Lemma revert_fails_to_restore :
  (let c1 := setStateAndFollow hi (Some 1000) start in
   let c2 := revertStateToFollow String.eqb c1 in
   follow_reachable String.eqb start /\
   state (f_delayed c1) = EmptyString /\ f_state c1 = hi /\
   timers (f_delayed c1) <> [] /\
   timers (f_delayed c2) = [] /\
   f_state c2 = hi /\ f_state c2 <> state (f_delayed c2) /\
   r_state (elapse 1000 c2) = hi /\
   r_followState (elapse 1000 c2) = EmptyString) /\
  (let c1 := elapse 50 (render (setStateAndFollow hi (Some 3000000000) start)) in
   let c2 := revertStateToFollow String.eqb c1 in
   0 <= 50 < 3000000000 /\
   r_state c1 = hi /\ r_followState c1 = hi /\
   f_state c2 = hi /\ state (f_delayed c2) = hi /\
   state (f_delayed c2) <> state (f_delayed start)).
Proof.
  split.
  - intros c1 c2. split; [apply freach_mount|].
    repeat split; try reflexivity; vm_compute; discriminate.
  - intros c1 c2. split; [lia|].
    repeat split; try reflexivity; vm_compute; discriminate.
Qed.

(** C3 read for every delay fails at [d = 3000000000]: 50 ms after
    [setStateAndFollow("hi", 3000000000)] the following value is "hi", not
    the prior empty string. *)
Lemma follow_converges_early_beyond_int32 :
  let c1 := setStateAndFollow hi (Some 3000000000) start in
  follow_reachable String.eqb start /\ 0 <= 50 < 3000000000 /\
  r_followState (elapse 50 c1) = hi /\
  r_followState (elapse 50 c1) <> state (f_delayed start).
Proof.
  intros c1. split; [apply freach_mount|]. split; [lia|].
  split; [reflexivity | vm_compute; discriminate].
Qed.

(** C6 read for every delay fails at [d = 3000000000]: a cancel 50 ms after
    [setStateAfter(1, 3000000000)] finds the timer gone and the value
    written; the value is 1, not the starting 0, then and later. *)
Lemma cancel_too_late_beyond_int32 :
  let s := useDelayedState 0 in
  let s1 := advance 50 (setStateAfter 1 (Some 3000000000) s) in
  let s' := cancelSetState s1 in
  reachable s /\ 0 <= 50 < 3000000000 /\
  timers s1 = [] /\ state s' = 1 /\ state s' <> state s /\
  state (advance 3000000000 s') = 1.
Proof.
  intros s s1 s'. split; [apply reach_mount|]. split; [lia|].
  split; [reflexivity|]. split; [reflexivity|].
  split; [vm_compute; discriminate | reflexivity].
Qed.
